(** * Graham's scan and Quickhull (Grahmvs_Quick_hull.py): a shallow embedding

    The two hull routines of [Grahmvs_Quick_hull.py] are embedded as Rocq
    functions over lists of points and their documented properties are
    stated against them.

    Modelling conventions.
    - A coordinate is an exact rational in canonical form ([Qc]), so that
      Python's numeric [==] on coordinates and on tuples is Leibniz equality.
      Floating-point rounding is outside the model: [side], [orientation] and
      the sort key are exact here and rounded to binary64 in the program.
      The statements below are either about the control structure (loops,
      selection, assembly), which does not depend on rounding, or about
      concrete inputs made of small dyadic numbers, on which every binary64
      operation involved is exact.
    - [math.atan2] only feeds the sort key of [graham_scan]; its results are
      never inspected, only compared, and the comparison is modelled exactly
      ([atan2_compare]).
    - The call stack of [quickhull_util] is bounded by a [depth] argument:
      [None] stands for a recursion deeper than the bound (Python's
      [RecursionError]); a call that yields [None] at every depth never
      returns. *)

From Stdlib Require Import QArith Qcanon Qcabs List Lia Lqa Bool Arith.
Import ListNotations.

Open Scope Qc_scope.
(* [[x]] is a one-element list below; the absolute value is written
   [Qcabs x]. *)
Open Scope list_scope.

(** ** Numbers *)

Definition Qceqb (a b : Qc) : bool :=
  match a ?= b with Eq => true | _ => false end.

Definition Qcltb (a b : Qc) : bool :=
  match a ?= b with Lt => true | _ => false end.

Definition QcZ (z : Z) : Qc := Q2Qc (inject_Z z).

(** ** Points *)

(** A point is the Python tuple [(x, y)]: [p[0]] is [px p], [p[1]] is [py p]. *)
Definition point : Type := (Qc * Qc)%type.

Definition px (p : point) : Qc := fst p.
Definition py (p : point) : Qc := snd p.

Definition pt (x y : Z) : point := (QcZ x, QcZ y).

(** Tuple comparison [a < b] of Python, on pairs of numbers. *)
Definition tuple_ltb (a b : Qc * Qc) : bool :=
  Qcltb (fst a) (fst b) || (Qceqb (fst a) (fst b) && Qcltb (snd a) (snd b)).

(** ** Built-ins: [min], [max], [sorted] *)

Section Builtins.
Context {A : Type}.

(** [min(iterable, key=...)]: the running best is replaced only by a
    strictly smaller key, so the first minimal element wins.  [lt a b]
    stands for [key(a) < key(b)].  The default is returned on an empty
    iterable (where Python raises [ValueError]). *)
Definition py_min (lt : A -> A -> bool) (d : A) (l : list A) : A :=
  match l with
  | [] => d
  | x :: t => fold_left (fun best y => if lt y best then y else best) t x
  end.

(** [max(iterable, key=...)]: replaced only by a strictly greater key. *)
Definition py_max (lt : A -> A -> bool) (d : A) (l : list A) : A :=
  match l with
  | [] => d
  | x :: t => fold_left (fun best y => if lt best y then y else best) t x
  end.

(** [sorted(iterable, key=...)] is a stable sort; [lt a b] stands for
    [key(a) < key(b)].  Stable insertion: an element goes in front of the
    first element that is not strictly smaller. *)
Fixpoint insert_sorted (lt : A -> A -> bool) (x : A) (l : list A) : list A :=
  match l with
  | [] => [x]
  | y :: t => if lt y x then y :: insert_sorted lt x t else x :: y :: t
  end.

Definition sorted (lt : A -> A -> bool) (l : list A) : list A :=
  fold_right (insert_sorted lt) [] l.
End Builtins.

(** ** Graham's scan *)

(** [orientation(p, q, r)]: 0 collinear, 1 when [val > 0], 2 otherwise.
    [val] is exact here; the program rounds it to binary64. *)
Definition orientation (p q r : point) : Z :=
  let val := (py q - py p) * (px r - px q) - (px q - px p) * (py r - py q) in
  if Qceqb val 0 then 0%Z
  else if Qcltb 0 val then 1%Z else 2%Z.

(** Exact order of [atan2(y, x)] values (the program compares their
    binary64 roundings, under which close directions can tie).  The range
    (-pi, pi] is cut into the
    open lower half-plane (0), the ray of angle 0 together with the origin
    (1), the open upper half-plane (2) and the ray of angle pi (3); inside an
    open half-plane two angles compare like the sign of the cross product. *)
Definition sector (y x : Qc) : Z :=
  if Qcltb y 0 then 0%Z
  else if Qcltb 0 y then 2%Z
  else if Qcltb x 0 then 3%Z else 1%Z.

Definition atan2_compare (y1 x1 y2 x2 : Qc) : comparison :=
  match Z.compare (sector y1 x1) (sector y2 x2) with
  | Eq =>
      if Z.even (sector y1 x1) then (y1 * x2 ?= x1 * y2) else Eq
  | c => c
  end.

(** [key(a) < key(b)] for the key [(atan2(p[1]-p0[1], p[0]-p0[0]), p)]. *)
Definition key_ltb (p0 a b : point) : bool :=
  match atan2_compare (py a - py p0) (px a - px p0)
                      (py b - py p0) (px b - px p0) with
  | Lt => true
  | Gt => false
  | Eq => tuple_ltb a b
  end.

(** The condition of the inner [while]:
    [len(hull) > 1 and orientation(hull[-2], hull[-1], point) != 1]. *)
Definition must_pop (hull : list point) (p : point) : bool :=
  match rev hull with
  | top :: second :: _ => negb (orientation second top p =? 1)%Z
  | _ => false
  end.

(** The inner [while] loop; every iteration pops one element, so [length hull]
    iterations always suffice. *)
Fixpoint pop_while (fuel : nat) (hull : list point) (p : point)
  : list point :=
  match fuel with
  | O => hull
  | S fuel' =>
      if must_pop hull p
      then pop_while fuel' (removelast hull) p
      else hull
  end.

(** One iteration of [for point in sorted_points]. *)
Definition sweep_step (hull : list point) (p : point) : list point :=
  pop_while (length hull) hull p ++ [p].

Definition sweep (sorted_points : list point) : list point :=
  fold_left sweep_step sorted_points [].

(** [p0 = points[min(range(n), key=lambda i: (points[i][1], points[i][0]))]]. *)
Definition pivot (points : list point) : point :=
  let key i := (py (nth i points (0, 0)), px (nth i points (0, 0))) in
  let l := py_min (fun i j => tuple_ltb (key i) (key j)) O
                  (seq 0 (length points)) in
  nth l points (0, 0).

Definition sorted_points (points : list point) : list point :=
  sorted (key_ltb (pivot points)) points.

Definition graham_scan (points : list point) : list point :=
  let n := length points in
  if (n <? 3)%nat then points
  else sweep (sorted_points points).

(** ** Quickhull *)

(** [side(p1, p2, p)], exact here; the program rounds it to binary64. *)
Definition side (p1 p2 p : point) : Qc :=
  (py p - py p1) * (px p2 - px p1) - (py p2 - py p1) * (px p - px p1).

(** The [for i in range(n)] loop of [quickhull_util], on the pair
    [(max_dist, max_point)]. *)
Definition scan_step (p1 p2 : point) (side_flag : Qc)
  (st : Qc * option point) (p : point) : Qc * option point :=
  let temp := Qcabs (side p1 p2 p) in
  if Qceqb (side p1 p2 p) side_flag && Qcltb (fst st) temp
  then (temp, Some p)
  else st.

Definition scan (points : list point) (p1 p2 : point) (side_flag : Qc)
  : Qc * option point :=
  fold_left (scan_step p1 p2 side_flag) points (0, None).

Definition bind {A B : Type} (m : option A) (k : A -> option B) : option B :=
  match m with
  | Some a => k a
  | None => None
  end.

Notation "x <- m ;; k" := (bind m (fun x => k))
  (at level 61, m at next level, right associativity).

Fixpoint quickhull_util (depth : nat) (points : list point) (p1 p2 : point)
  (side_flag : Qc) : option (list point) :=
  match depth with
  | O => None
  | S depth' =>
      match snd (scan points p1 p2 side_flag) with
      | None => Some []
      | Some max_point =>
          l <- quickhull_util depth' points p1 max_point
                 (- side p1 max_point p2) ;;
          r <- quickhull_util depth' points max_point p2
                 (- side max_point p2 p1) ;;
          Some (l ++ [max_point] ++ r)
      end
  end.

Definition quickhull (depth : nat) (points : list point)
  : option (list point) :=
  if (length points <? 3)%nat then Some points
  else
    let min_point := py_min (fun a b => Qcltb (px a) (px b)) (0, 0) points in
    let max_point := py_max (fun a b => Qcltb (px a) (px b)) (0, 0) points in
    let hull := [] in
    upper <- quickhull_util depth points min_point max_point 1 ;;
    let hull := hull ++ upper in
    lower <- quickhull_util depth points min_point max_point (- (1)) ;;
    let hull := hull ++ lower in
    let hull := hull ++ [min_point] in
    let hull := hull ++ [max_point] in
    Some hull.

(** ** Concrete inputs *)

Definition half : Qc := Q2Qc (1 # 2).

(** [[(0,0),(1,0),(1,1),(0,1),(0.5,0.5)]] *)
Definition square_plus_centre : list point :=
  [pt 0 0; pt 1 0; pt 1 1; pt 0 1; (half, half)].

(** [[(0,0),(1,0),(0,1),(-1,3)]] *)
Definition kite : list point := [pt 0 0; pt 1 0; pt 0 1; pt (-1) 3].

(** Observation of points as plain fractions; it is injective because the
    coordinates are in canonical form. *)
Definition show_pt (p : point) : Q * Q := (this (px p), this (py p)).
Definition shows (l : list point) : list (Q * Q) := map show_pt l.

(** ** Notions used by the statements *)

(** [first_best lt l m]: [m] occurs in [l], beats everything before it
    strictly and is not beaten by anything after it. *)
Definition first_best {A : Type} (lt : A -> A -> bool) (l : list A) (m : A)
  : Prop :=
  exists l1 l2, l = l1 ++ m :: l2 /\
    Forall (fun q => lt m q = true) l1 /\ Forall (fun q => lt q m = false) l2.

(** "The first-encountered point of smallest x" and "of largest x". *)
Definition first_min_x (points : list point) (m : point) : Prop :=
  exists l1 l2, points = l1 ++ m :: l2 /\
    Forall (fun q => px m < px q) l1 /\ Forall (fun q => px m <= px q) l2.

Definition first_max_x (points : list point) (m : point) : Prop :=
  exists l1 l2, points = l1 ++ m :: l2 /\
    Forall (fun q => px q < px m) l1 /\ Forall (fun q => px q <= px m) l2.

(** What the farthest-point loop has established after the points [seen]:
    [max_dist] bounds the magnitude of every point seen on the flag, and
    [max_point], when set, is such a point of positive magnitude
    [max_dist]. *)
Definition scan_inv (p1 p2 : point) (side_flag : Qc) (seen : list point)
  (st : Qc * option point) : Prop :=
  (forall q, In q seen -> side p1 p2 q = side_flag ->
             Qcabs (side p1 p2 q) <= fst st) /\
  match snd st with
  | None => fst st = 0
  | Some m =>
      In m seen /\ side p1 p2 m = side_flag /\
      fst st = Qcabs (side p1 p2 m) /\ 0 < fst st
  end.

(** The claim C7 as it is worded: the candidates are the points whose [side]
    equals the flag, without any condition on the magnitude. *)
Definition util_as_worded (depth : nat) (points : list point)
  (p1 p2 : point) (side_flag : Qc) : Prop :=
  ((forall p, In p points -> side p1 p2 p <> side_flag) /\
   quickhull_util (S depth) points p1 p2 side_flag = Some [])
  \/
  (exists m, In m points /\ side p1 p2 m = side_flag /\
     (forall q, In q points -> side p1 p2 q = side_flag ->
                Qcabs (side p1 p2 q) <= Qcabs (side p1 p2 m)) /\
     quickhull_util (S depth) points p1 p2 side_flag =
       (l <- quickhull_util depth points p1 m (- side p1 m p2) ;;
        r <- quickhull_util depth points m p2 (- side m p2 p1) ;;
        Some (l ++ [m] ++ r))).

(** The pivot of Graham's scan: the lowest, then leftmost input point. *)
Definition lowest_leftmost (points : list point) (p0 : point) : Prop :=
  In p0 points /\
  forall q, In q points ->
            py p0 < py q \/ (py p0 = py q /\ px p0 <= px q).

(** Neighbours in a sequence are in key order: no element has a key strictly
    below the key of its predecessor. *)
Definition in_order {A : Type} (lt : A -> A -> bool) (l : list A) : Prop :=
  forall pre a b post, l = pre ++ a :: b :: post -> lt b a = false.

(** A configuration of the sweep: the stack [hull] (top at the end, as in the
    Python list) and the points still to be visited. *)
Record sweep_state : Type := Sweep { stack : list point; todo : list point }.

(** The sweep as the specification words it: with at least two elements on
    the stack and [orientation(second-to-top, top, next)] different from 1
    the top is popped; otherwise [next] is pushed and the sweep moves on. *)
Inductive sweep_rule : sweep_state -> sweep_state -> Prop :=
| rule_pop (below : list point) (second top next : point) (rest : list point) :
    orientation second top next <> 1%Z ->
    sweep_rule (Sweep (below ++ [second; top]) (next :: rest))
               (Sweep (below ++ [second]) (next :: rest))
| rule_push (hull : list point) (next : point) (rest : list point) :
    (forall below second top,
        hull = below ++ [second; top] -> orientation second top next = 1%Z) ->
    sweep_rule (Sweep hull (next :: rest)) (Sweep (hull ++ [next]) rest).

Inductive sweep_run : sweep_state -> sweep_state -> Prop :=
| run_done (s : sweep_state) : sweep_run s s
| run_step (s1 s2 s3 : sweep_state) :
    sweep_rule s1 s2 -> sweep_run s2 s3 -> sweep_run s1 s3.

(** Membership in the convex hull of a finite vertex list: the point
    satisfies every linear inequality that all the vertices satisfy.  A
    polygon drawn on the vertices is contained in this hull. *)
Definition in_hull_of (vertices : list point) (p : point) : Prop :=
  forall a b c : Qc,
    (forall v, In v vertices -> a * px v + b * py v <= c) ->
    a * px p + b * py p <= c.

Definition same_vertex_set (h1 h2 : list point) : Prop :=
  forall p, In p h1 <-> In p h2.

(** The consecutive triples of a sequence. *)
Fixpoint triples (l : list point) : list (point * point * point) :=
  match l with
  | a :: t =>
      match t with
      | b :: c :: _ => (a, b, c) :: triples t
      | _ => []
      end
  | [] => []
  end.

(** The claim C4 as it is worded, for a returned sequence [hull]: it starts
    at the lowest, then leftmost input point, repeats no point, and, read as
    the closed boundary of a polygon, every three consecutive vertices turn
    left (category 2). *)
Definition boundary_as_worded (points hull : list point) : Prop :=
  (exists p0 rest, hull = p0 :: rest /\ lowest_leftmost points p0) /\
  NoDup hull /\
  Forall (fun t => orientation (fst (fst t)) (snd (fst t)) (snd t) = 2%Z)
         (triples (hull ++ firstn 2 hull)).

(** ** Notions used by the further properties *)

(** [subseq s l]: [s] is obtained from [l] by deleting elements, the others
    keeping their order. *)
Inductive subseq {A : Type} : list A -> list A -> Prop :=
| subseq_nil : subseq [] []
| subseq_skip (x : A) (s l : list A) : subseq s l -> subseq s (x :: l)
| subseq_take (x : A) (s l : list A) : subseq s l -> subseq (x :: s) (x :: l).

(** The baseline endpoints of [quickhull]:
    [min(points, key=lambda p: p[0])] and [max(points, key=lambda p: p[0])]. *)
Definition baseline_min (points : list point) : point :=
  py_min (fun a b => Qcltb (px a) (px b)) (0, 0) points.

Definition baseline_max (points : list point) : point :=
  py_max (fun a b => Qcltb (px a) (px b)) (0, 0) points.

(** Every three consecutive elements have [orientation] 1. *)
Definition turns_one (hull : list point) : Prop :=
  forall pre a b c post,
    hull = pre ++ a :: b :: c :: post -> orientation a b c = 1%Z.

(** * Basic facts *)

Lemma Qceqb_eq (a b : Qc) : Qceqb a b = true <-> a = b.
Proof.
  unfold Qceqb. rewrite (Qceq_alt a b).
  destruct (a ?= b); split; intro H; congruence.
Qed.

Lemma Qceqb_neq (a b : Qc) : Qceqb a b = false <-> a <> b.
Proof.
  rewrite <- (Qceqb_eq a b). destruct (Qceqb a b); split; congruence.
Qed.

Lemma Qcltb_lt (a b : Qc) : Qcltb a b = true <-> a < b.
Proof.
  unfold Qcltb. rewrite (Qclt_alt a b).
  destruct (a ?= b); split; intro H; congruence.
Qed.

Lemma Qcltb_ge (a b : Qc) : Qcltb a b = false <-> b <= a.
Proof.
  split; intro H.
  - apply Qcnot_lt_le. intro L. apply Qcltb_lt in L. congruence.
  - destruct (Qcltb a b) eqn:E; [|reflexivity].
    apply Qcltb_lt in E. exfalso. exact (Qcle_not_lt _ _ H E).
Qed.

Lemma Qcltb_irrefl (a : Qc) : Qcltb a a = false.
Proof. apply Qcltb_ge, Qcle_refl. Qed.

Lemma show_pt_inj (p q : point) : show_pt p = show_pt q -> p = q.
Proof.
  destruct p as [a b], q as [c d]. unfold show_pt, px, py. simpl.
  intro H. injection H as H1 H2.
  apply Qc_decomp in H1. apply Qc_decomp in H2. congruence.
Qed.

Lemma shows_inj (l1 l2 : list point) : shows l1 = shows l2 -> l1 = l2.
Proof.
  revert l2. induction l1 as [|p t IH]; intros [|q t2] H;
    cbn [shows map] in H; try discriminate; [reflexivity|].
  pose proof (f_equal (hd (show_pt p)) H) as Hp.
  pose proof (f_equal (@tl _) H) as Ht. cbn [hd tl] in Hp, Ht.
  f_equal; [now apply show_pt_inj | now apply IH].
Qed.

Lemma show_opt_inj (a b : option point) :
  option_map show_pt a = option_map show_pt b -> a = b.
Proof.
  destruct a as [p|], b as [q|]; cbn [option_map]; intro H;
    try discriminate; [|reflexivity].
  assert (E : show_pt p = show_pt q) by congruence.
  f_equal. now apply show_pt_inj.
Qed.

Lemma show_hull_inj (a b : option (list point)) :
  option_map shows a = option_map shows b -> a = b.
Proof.
  destruct a as [l|], b as [l'|]; cbn [option_map]; intro H;
    try discriminate; [|reflexivity].
  assert (E : shows l = shows l') by congruence.
  f_equal. now apply shows_inj.
Qed.

(** Closed equations between numbers, points and hulls, by evaluation. *)
Ltac by_eval :=
  first [ apply shows_inj | apply show_hull_inj | apply show_opt_inj
        | apply show_pt_inj | apply Qc_decomp ];
  vm_compute; reflexivity.

(** Closed disequations between points. *)
Ltac pt_neq :=
  let H := fresh in
  intro H; apply (f_equal show_pt) in H; vm_compute in H; discriminate H.

Ltac not_in :=
  let H := fresh in
  intro H; simpl in H;
  repeat (destruct H as [H|H]; [revert H; pt_neq|]); exact H.

(** ** Depth bounds *)

Lemma quickhull_util_mono (d d' : nat) points p1 p2 f r :
  (d <= d')%nat ->
  quickhull_util d points p1 p2 f = Some r ->
  quickhull_util d' points p1 p2 f = Some r.
Proof.
  revert d' p1 p2 f r.
  induction d as [|d IH]; intros d' p1 p2 f r Hle H; [discriminate|].
  destruct d' as [|d']; [lia|].
  assert (Hd : (d <= d')%nat) by lia.
  simpl in *. destruct (snd (scan points p1 p2 f)) as [m|]; [|exact H].
  destruct (quickhull_util d points p1 m _) as [l|] eqn:El; [|discriminate].
  destruct (quickhull_util d points m p2 _) as [r'|] eqn:Er; [|discriminate].
  rewrite (IH d' _ _ _ _ Hd El), (IH d' _ _ _ _ Hd Er).
  exact H.
Qed.

Lemma quickhull_mono (d d' : nat) points r :
  (d <= d')%nat ->
  quickhull d points = Some r -> quickhull d' points = Some r.
Proof.
  unfold quickhull. intros Hle.
  destruct (length points <? 3)%nat; [trivial|].
  set (a := py_min _ _ _). set (b := py_max _ _ _).
  destruct (quickhull_util d points a b 1) as [u|] eqn:Eu; [|discriminate].
  destruct (quickhull_util d points a b (- (1))) as [l|] eqn:El;
    [|discriminate].
  rewrite (quickhull_util_mono _ _ _ _ _ _ _ Hle Eu).
  rewrite (quickhull_util_mono _ _ _ _ _ _ _ Hle El).
  trivial.
Qed.

(** ** The two hulls of the unit square with its centre *)

Lemma graham_scan_square :
  graham_scan square_plus_centre = [pt 0 0; pt 0 1].
Proof. by_eval. Qed.

Lemma quickhull_square (depth : nat) :
  quickhull (3 + depth) square_plus_centre
  = Some [pt 0 1; pt 1 1; pt 0 0; pt 1 0].
Proof.
  apply (quickhull_mono 3); [lia|]. by_eval.
Qed.

(** On a square of side 2 no point has [side] equal to 1 or -1 with respect
    to the baseline, and [quickhull] returns the baseline alone. *)
Lemma quickhull_square_of_side_two (depth : nat) :
  quickhull (1 + depth) [pt 0 0; pt 2 0; pt 2 2; pt 0 2]
  = Some [pt 0 0; pt 2 0].
Proof.
  apply (quickhull_mono 1); [lia|]. by_eval.
Qed.

(** ** [min] and [max] return the first extremal element *)

Section FirstBest.
Context {A : Type} (lt : A -> A -> bool).
Hypothesis lt_trans : forall a b c,
  lt a b = true -> lt b c = true -> lt a c = true.
Hypothesis lt_le_trans : forall a b c,
  lt a b = true -> lt c b = false -> lt a c = true.

Lemma fold_min_first_best (t l1 l2 : list A) (b : A) :
  Forall (fun q => lt b q = true) l1 ->
  Forall (fun q => lt q b = false) l2 ->
  first_best lt (l1 ++ b :: l2 ++ t)
    (fold_left (fun best y => if lt y best then y else best) t b).
Proof.
  revert l1 l2 b.
  induction t as [|y t IH]; intros l1 l2 b H1 H2; simpl.
  - exists l1, l2. rewrite app_nil_r. auto.
  - destruct (lt y b) eqn:E.
    + specialize (IH (l1 ++ b :: l2) [] y).
      rewrite <- app_assoc in IH. simpl in IH. apply IH; [|constructor].
      apply Forall_app. split; [|constructor].
      * eapply Forall_impl; [|exact H1]. intros q Hq. simpl in Hq.
        eapply lt_trans; eassumption.
      * assumption.
      * eapply Forall_impl; [|exact H2]. intros q Hq. simpl in Hq.
        eapply lt_le_trans; eassumption.
    + specialize (IH l1 (l2 ++ [y]) b).
      rewrite <- app_assoc in IH. simpl in IH. apply IH; [assumption|].
      apply Forall_app. split; [assumption|]. constructor; [assumption|].
      constructor.
Qed.

Lemma py_min_first_best (d : A) (l : list A) :
  l <> [] -> first_best lt l (py_min lt d l).
Proof.
  destruct l as [|x t]; [congruence|]. intros _.
  apply (fold_min_first_best t [] [] x); constructor.
Qed.
End FirstBest.

Lemma min_point_first (points : list point) :
  points <> [] ->
  first_min_x points (py_min (fun a b => Qcltb (px a) (px b)) (0, 0) points).
Proof.
  intro Hne.
  destruct (py_min_first_best (fun a b => Qcltb (px a) (px b))) with
    (d := ((0, 0) : point)) (l := points) as (l1 & l2 & E & H1 & H2).
  - intros a b c Hab Hbc. apply Qcltb_lt in Hab, Hbc. apply Qcltb_lt.
    eapply Qclt_trans; eassumption.
  - intros a b c Hab Hcb. apply Qcltb_lt in Hab. apply Qcltb_ge in Hcb.
    apply Qcltb_lt. eapply Qclt_le_trans; eassumption.
  - exact Hne.
  - exists l1, l2. split; [exact E|]. split.
    + eapply Forall_impl; [|exact H1]. intros q Hq. now apply Qcltb_lt.
    + eapply Forall_impl; [|exact H2]. intros q Hq. now apply Qcltb_ge.
Qed.

Lemma max_point_first (points : list point) :
  points <> [] ->
  first_max_x points (py_max (fun a b => Qcltb (px a) (px b)) (0, 0) points).
Proof.
  intro Hne.
  change (py_max (fun a b => Qcltb (px a) (px b)) (0, 0) points)
    with (py_min (fun a b : point => Qcltb (px b) (px a)) (0, 0) points).
  destruct (py_min_first_best (fun a b : point => Qcltb (px b) (px a))) with
    (d := ((0, 0) : point)) (l := points) as (l1 & l2 & E & H1 & H2).
  - intros a b c Hab Hbc. apply Qcltb_lt in Hab, Hbc. apply Qcltb_lt.
    eapply Qclt_trans; eassumption.
  - intros a b c Hab Hcb. apply Qcltb_lt in Hab. apply Qcltb_ge in Hcb.
    apply Qcltb_lt. eapply Qcle_lt_trans; eassumption.
  - exact Hne.
  - exists l1, l2. split; [exact E|]. split.
    + eapply Forall_impl; [|exact H1]. intros q Hq. now apply Qcltb_lt.
    + eapply Forall_impl; [|exact H2]. intros q Hq. now apply Qcltb_ge.
Qed.

Lemma length_ge3_nonempty {A : Type} (l : list A) :
  (3 <= length l)%nat -> l <> [].
Proof. destruct l; simpl; [lia|congruence]. Qed.

(** ** The farthest-point loop of [quickhull_util] *)

Lemma Qcabs_pos_iff (x : Qc) : 0 < Qcabs x <-> x <> 0.
Proof.
  split.
  - intros H E. subst x. rewrite Qcabs_pos in H by apply Qcle_refl.
    revert H. apply Qcle_not_lt, Qcle_refl.
  - intro H. destruct (Qcle_lt_or_eq _ _ (Qcabs_nonneg x)) as [L|E];
      [exact L|]. symmetry in E. apply Qcabs_null in E. contradiction.
Qed.

Section Scan.
Variables (p1 p2 : point) (side_flag : Qc).

Lemma scan_step_inv (seen : list point) st (p : point) :
  scan_inv p1 p2 side_flag seen st ->
  scan_inv p1 p2 side_flag (seen ++ [p]) (scan_step p1 p2 side_flag st p).
Proof.
  intros [Hmax Hst]. unfold scan_step.
  destruct (Qceqb (side p1 p2 p) side_flag) eqn:Ef; simpl andb.
  - destruct (Qcltb (fst st) (Qcabs (side p1 p2 p))) eqn:El.
    + apply Qcltb_lt in El. apply Qceqb_eq in Ef. split; simpl.
      * intros q Hq Hf. apply in_app_or in Hq. destruct Hq as [Hq|[<-|[]]].
        -- apply Qclt_le_weak. eapply Qcle_lt_trans; [|exact El]. auto.
        -- apply Qcle_refl.
      * repeat split; auto.
        -- apply in_or_app. right. now left.
        -- eapply Qcle_lt_trans; [|exact El].
           destruct (snd st); [|rewrite Hst; apply Qcle_refl].
           apply Qclt_le_weak. tauto.
    + apply Qcltb_ge in El. split.
      * intros q Hq Hf. apply in_app_or in Hq. destruct Hq as [Hq|[<-|[]]];
          auto.
      * destruct (snd st); [|exact Hst].
        destruct Hst as (Hin & ? & ? & ?). repeat split; auto.
        apply in_or_app. now left.
  - apply Qceqb_neq in Ef. split.
    + intros q Hq Hf. apply in_app_or in Hq. destruct Hq as [Hq|[<-|[]]];
        [auto|contradiction].
    + destruct (snd st); [|exact Hst].
      destruct Hst as (Hin & ? & ? & ?). repeat split; auto.
      apply in_or_app. now left.
Qed.

Lemma fold_scan_inv (todo seen : list point) st :
  scan_inv p1 p2 side_flag seen st ->
  scan_inv p1 p2 side_flag (seen ++ todo)
    (fold_left (scan_step p1 p2 side_flag) todo st).
Proof.
  revert seen st. induction todo as [|p t IH]; intros seen st H; simpl.
  - now rewrite app_nil_r.
  - replace (seen ++ p :: t) with ((seen ++ [p]) ++ t)
      by (rewrite <- app_assoc; reflexivity).
    apply IH. now apply scan_step_inv.
Qed.

Lemma scan_spec (points : list point) :
  scan_inv p1 p2 side_flag points (scan points p1 p2 side_flag).
Proof.
  apply (fold_scan_inv points []). split; simpl; [tauto|reflexivity].
Qed.

(** No point found: every point on the flagged level is on the line. *)
Lemma scan_none (points : list point) :
  snd (scan points p1 p2 side_flag) = None ->
  forall q, In q points -> side p1 p2 q = side_flag -> side p1 p2 q = 0.
Proof.
  intros E q Hq Hf. destruct (scan_spec points) as [Hmax Hst].
  rewrite E in Hst. specialize (Hmax q Hq Hf). rewrite Hst in Hmax.
  apply Qcabs_null. apply Qcle_antisym; [exact Hmax|apply Qcabs_nonneg].
Qed.

Lemma scan_some (points : list point) (m : point) :
  snd (scan points p1 p2 side_flag) = Some m ->
  In m points /\ side p1 p2 m = side_flag /\ side p1 p2 m <> 0 /\
  forall q, In q points -> side p1 p2 q = side_flag ->
            Qcabs (side p1 p2 q) <= Qcabs (side p1 p2 m).
Proof.
  intros E. destruct (scan_spec points) as [Hmax Hst].
  rewrite E in Hst. destruct Hst as (Hin & Hf & Hd & Hpos).
  repeat split; auto.
  - apply Qcabs_pos_iff. now rewrite <- Hd.
  - intros q Hq Hqf. rewrite <- Hd. auto.
Qed.
End Scan.

Lemma quickhull_util_unfold (depth : nat) points p1 p2 f :
  quickhull_util (S depth) points p1 p2 f =
  match snd (scan points p1 p2 f) with
  | None => Some []
  | Some m =>
      l <- quickhull_util depth points p1 m (- side p1 m p2) ;;
      r <- quickhull_util depth points m p2 (- side m p2 p1) ;;
      Some (l ++ [m] ++ r)
  end.
Proof. reflexivity. Qed.

(** ** Quickhull: claims *)

(** C7, counterexample: with flag 0 the point (0,0) lies on the line through
    (0,0) and (1,0), so its [side] equals the flag, yet [temp > max_dist]
    rejects it and the call returns the empty list. *)
Lemma quickhull_util_flag_zero :
  ~ exists depth, util_as_worded depth [pt 0 0] (pt 0 0) (pt 1 0) 0.
Proof.
  intros [depth [[Hno _]|(m & _ & _ & _ & E)]].
  - apply (Hno (pt 0 0)); [now left|]. by_eval.
  - rewrite quickhull_util_unfold in E.
    replace (snd (scan [pt 0 0] (pt 0 0) (pt 1 0) 0)) with (@None point)
      in E by by_eval.
    destruct (quickhull_util depth _ _ m _) as [l|]; [|discriminate E].
    destruct (quickhull_util depth _ m _ _) as [r|]; [|discriminate E].
    simpl in E. destruct l; discriminate E.
Qed.

(** C7 (amended): [quickhull_util] scans all points; when no point has a
    non-zero [side] equal to the flag it returns the empty list; otherwise it
    selects a point [m] whose [side] equals the flag, is non-zero and has the
    largest magnitude among the points on the flag, and returns the recursion
    on [(p1, m, -side(p1, m, p2))], then [[m]], then the recursion on
    [(m, p2, -side(m, p2, p1))]. *)
Theorem quickhull_util_spec (depth : nat) (points : list point)
  (p1 p2 : point) (side_flag : Qc) :
  ((forall p, In p points -> side p1 p2 p = side_flag -> side p1 p2 p = 0) /\
   quickhull_util (S depth) points p1 p2 side_flag = Some [])
  \/
  (exists m, In m points /\ side p1 p2 m = side_flag /\ side p1 p2 m <> 0 /\
     (forall q, In q points -> side p1 p2 q = side_flag ->
                Qcabs (side p1 p2 q) <= Qcabs (side p1 p2 m)) /\
     quickhull_util (S depth) points p1 p2 side_flag =
       (l <- quickhull_util depth points p1 m (- side p1 m p2) ;;
        r <- quickhull_util depth points m p2 (- side m p2 p1) ;;
        Some (l ++ [m] ++ r))).
Proof.
  rewrite quickhull_util_unfold.
  destruct (snd (scan points p1 p2 side_flag)) as [m|] eqn:E.
  - right. exists m.
    destruct (scan_some _ _ _ _ _ E) as (Hin & Hf & Hnz & Hmax).
    repeat split; assumption.
  - left. split; [|reflexivity]. exact (scan_none _ _ _ _ E).
Qed.

(** C6: for an input of at least three points, [min_point] is the first point
    of smallest x, [max_point] the first point of largest x, and the result is
    the upper recursion, then the lower recursion, then [min_point], then
    [max_point]. *)
Theorem quickhull_assembly (depth : nat) (points : list point) :
  (3 <= length points)%nat ->
  exists min_point max_point,
    first_min_x points min_point /\ first_max_x points max_point /\
    quickhull depth points =
      (upper <- quickhull_util depth points min_point max_point 1 ;;
       lower <- quickhull_util depth points min_point max_point (- (1)) ;;
       Some (upper ++ lower ++ [min_point; max_point])).
Proof.
  intro Hn. pose proof (length_ge3_nonempty _ Hn) as Hne.
  exists (py_min (fun a b => Qcltb (px a) (px b)) (0, 0) points),
         (py_max (fun a b => Qcltb (px a) (px b)) (0, 0) points).
  split; [now apply min_point_first|]. split; [now apply max_point_first|].
  unfold quickhull.
  destruct (Nat.ltb_spec (length points) 3) as [Hlt|_]; [lia|].
  destruct (quickhull_util depth points _ _ 1) as [u|]; [|reflexivity].
  simpl. destruct (quickhull_util depth points _ _ (- (1))) as [l|];
    [|reflexivity].
  simpl. now rewrite <- !app_assoc.
Qed.

Lemma quickhull_assembly_witness :
  exists min_point max_point,
    first_min_x square_plus_centre min_point /\
    first_max_x square_plus_centre max_point /\
    quickhull 3 square_plus_centre =
      (upper <- quickhull_util 3 square_plus_centre min_point max_point 1 ;;
       lower <-
         quickhull_util 3 square_plus_centre min_point max_point (- (1)) ;;
       Some (upper ++ lower ++ [min_point; max_point])).
Proof.
  apply (quickhull_assembly 3 square_plus_centre). simpl. lia.
Defined.

(** C9: an input of fewer than three points is returned unchanged, in its
    original order, by both algorithms; the empty input gives the empty
    hull. *)
Theorem fewer_than_three_unchanged (points : list point) :
  (length points < 3)%nat ->
  graham_scan points = points /\
  (forall depth, quickhull depth points = Some points) /\
  graham_scan [] = [] /\ (forall depth, quickhull depth [] = Some []).
Proof.
  intro Hn. unfold graham_scan, quickhull.
  destruct (Nat.ltb_spec (length points) 3) as [_|Hge]; [|lia].
  repeat split; reflexivity.
Qed.

Lemma fewer_than_three_unchanged_witness :
  graham_scan [pt 5 5] = [pt 5 5] /\
  (forall depth, quickhull depth [pt 5 5] = Some [pt 5 5]) /\
  graham_scan [] = [] /\ (forall depth, quickhull depth [] = Some []).
Proof.
  apply (fewer_than_three_unchanged [pt 5 5]). simpl. lia.
Defined.

(** On a degenerate baseline [side] vanishes everywhere. *)
Lemma side_same_endpoints (p q : point) : side p p q = 0.
Proof. unfold side. ring. Qed.

Lemma scan_degenerate (points : list point) (p : point) (f : Qc) :
  f <> 0 -> scan points p p f = (0, None).
Proof.
  intro Hf. unfold scan. induction points as [|q t IH]; [reflexivity|].
  simpl. unfold scan_step at 2. rewrite side_same_endpoints.
  replace (Qceqb 0 f) with false; [exact IH|].
  symmetry. apply Qceqb_neq. congruence.
Qed.

Lemma fold_keep {A : Type} (f : A -> A -> bool) (t : list A) (b : A) :
  Forall (fun y => f b y = false) t ->
  fold_left (fun best y => if f best y then y else best) t b = b.
Proof.
  induction 1 as [|y t Hy _ IH]; simpl; [reflexivity|]. now rewrite Hy.
Qed.

(** C10: when all of at least three points share one x-coordinate,
    [quickhull] returns the first input point twice. *)
Theorem quickhull_same_x (depth : nat) (p : point) (rest : list point) :
  (3 <= length (p :: rest))%nat ->
  (forall q, In q rest -> px q = px p) ->
  quickhull (S depth) (p :: rest) = Some [p; p].
Proof.
  intros Hn Hx. unfold quickhull.
  destruct (Nat.ltb_spec (length (p :: rest)) 3) as [Hlt|_]; [lia|].
  assert (Hmin : py_min (fun a b => Qcltb (px a) (px b)) (0, 0) (p :: rest)
                 = p).
  { unfold py_min.
    apply (fold_keep (fun best y => Qcltb (px y) (px best))).
    apply Forall_forall. intros q Hq. rewrite (Hx q Hq).
    apply Qcltb_irrefl. }
  assert (Hmax : py_max (fun a b => Qcltb (px a) (px b)) (0, 0) (p :: rest)
                 = p).
  { unfold py_max.
    apply (fold_keep (fun best y => Qcltb (px best) (px y))).
    apply Forall_forall. intros q Hq. rewrite (Hx q Hq).
    apply Qcltb_irrefl. }
  rewrite Hmin, Hmax, !quickhull_util_unfold.
  rewrite !scan_degenerate; [reflexivity| |].
  - intro H. apply (f_equal this) in H. vm_compute in H. discriminate H.
  - intro H. apply (f_equal this) in H. vm_compute in H. discriminate H.
Qed.

Lemma quickhull_same_x_witness :
  quickhull 1 [pt 2 0; pt 2 1; pt 2 5] = Some [pt 2 0; pt 2 0].
Proof.
  apply (quickhull_same_x 0 (pt 2 0) [pt 2 1; pt 2 5]).
  - simpl. lia.
  - intros q Hq. simpl in Hq.
    destruct Hq as [<-|[<-|[]]]; reflexivity.
Defined.

(** ** A recursion of [quickhull_util] that never reaches its base case *)

(** On [kite] the calls on the baselines ((-1,3),(0,1)), ((0,0),(0,1)) and
    ((1,0),(0,1)) with flag -1 call one another in a cycle. *)
Lemma kite_cycle (depth : nat) :
  quickhull_util depth kite (pt (-1) 3) (pt 0 1) (- (1)) = None /\
  quickhull_util depth kite (pt 0 0) (pt 0 1) (- (1)) = None /\
  quickhull_util depth kite (pt 1 0) (pt 0 1) (- (1)) = None.
Proof.
  induction depth as [|depth (IH1 & IH2 & IH3)]; [repeat split|].
  rewrite !quickhull_util_unfold. repeat split.
  - replace (snd (scan kite (pt (-1) 3) (pt 0 1) (- (1))))
      with (Some (pt 0 0)) by by_eval.
    replace (- side (pt 0 0) (pt 0 1) (pt (-1) 3)) with (- (1)) by by_eval.
    rewrite IH2. now destruct (quickhull_util depth kite _ (pt 0 0) _).
  - replace (snd (scan kite (pt 0 0) (pt 0 1) (- (1))))
      with (Some (pt 1 0)) by by_eval.
    replace (- side (pt 1 0) (pt 0 1) (pt 0 0)) with (- (1)) by by_eval.
    rewrite IH3. now destruct (quickhull_util depth kite _ (pt 1 0) _).
  - replace (snd (scan kite (pt 1 0) (pt 0 1) (- (1))))
      with (Some (pt (-1) 3)) by by_eval.
    replace (- side (pt (-1) 3) (pt 0 1) (pt 1 0)) with (- (1)) by by_eval.
    rewrite IH1. now destruct (quickhull_util depth kite _ (pt (-1) 3) _).
Qed.

(** C8 (the code fails it): on the four points (0,0), (1,0), (0,1), (-1,3)
    the lower recursion of [quickhull] does not return within any depth. *)
Theorem quickhull_kite_diverges (depth : nat) : quickhull depth kite = None.
Proof.
  unfold quickhull.
  replace (length kite <? 3)%nat with false by reflexivity.
  replace (py_min _ _ kite) with (pt (-1) 3) by by_eval.
  replace (py_max _ _ kite) with (pt 1 0) by by_eval.
  destruct depth as [|depth]; [reflexivity|].
  rewrite !quickhull_util_unfold.
  replace (snd (scan kite (pt (-1) 3) (pt 1 0) 1)) with (@None point)
    by by_eval.
  replace (snd (scan kite (pt (-1) 3) (pt 1 0) (- (1))))
    with (Some (pt 0 1)) by by_eval.
  replace (- side (pt (-1) 3) (pt 0 1) (pt 1 0)) with (- (1)) by by_eval.
  destruct (kite_cycle depth) as (E & _ & _). rewrite E. reflexivity.
Qed.

(** ** Claims on the unit square with its centre *)

(** C1 (the code fails it): on the square with its centre [graham_scan]
    returns two corners only while [quickhull] returns the four, so the two
    vertex sets differ. *)
Theorem hulls_differ_on_square (depth : nat) :
  exists g q,
    graham_scan square_plus_centre = g /\
    quickhull (3 + depth) square_plus_centre = Some q /\
    ~ same_vertex_set g q.
Proof.
  exists [pt 0 0; pt 0 1], [pt 0 1; pt 1 1; pt 0 0; pt 1 0].
  split; [apply graham_scan_square|]. split; [apply quickhull_square|].
  intro H. assert (Hin : In (pt 1 1) [pt 0 0; pt 0 1]).
  { apply H. simpl. tauto. }
  revert Hin. not_in.
Qed.

(** C2 (the code fails it): the input point (1,0) is outside the convex hull
    of the two vertices that [graham_scan] returns for the square, hence
    outside any polygon formed by them. *)
Theorem graham_scan_misses_corner :
  In (pt 1 0) square_plus_centre /\
  ~ in_hull_of (graham_scan square_plus_centre) (pt 1 0).
Proof.
  split; [simpl; tauto|]. rewrite graham_scan_square. intro H.
  specialize (H 1 0 0). revert H.
  replace (1 * px (pt 1 0) + 0 * py (pt 1 0)) with (QcZ 1) by by_eval.
  intro H. assert (L : QcZ 1 <= 0).
  { apply H. intros v [<-|[<-|[]]]; vm_compute; discriminate. }
  revert L. vm_compute. intro L. now apply L.
Qed.

(** C3 (the code fails it for [graham_scan]): on the square with its centre
    [quickhull] returns exactly the four corners, whereas [graham_scan]
    returns [(0,0), (0,1)] and so leaves out the corners (1,0) and (1,1). *)
Theorem square_scenario (depth : nat) :
  quickhull (3 + depth) square_plus_centre
    = Some [pt 0 1; pt 1 1; pt 0 0; pt 1 0] /\
  same_vertex_set [pt 0 1; pt 1 1; pt 0 0; pt 1 0]
                  [pt 0 0; pt 1 0; pt 1 1; pt 0 1] /\
  graham_scan square_plus_centre = [pt 0 0; pt 0 1] /\
  ~ In (pt 1 0) (graham_scan square_plus_centre) /\
  ~ In (pt 1 1) (graham_scan square_plus_centre) /\
  ~ In (half, half) (graham_scan square_plus_centre).
Proof.
  split; [apply quickhull_square|]. split.
  { intro p. simpl. tauto. }
  split; [apply graham_scan_square|].
  rewrite graham_scan_square. repeat split; not_in.
Qed.

(** ** The sweep of Graham's scan as a machine *)

Lemma sweep_run_trans (s1 s2 s3 : sweep_state) :
  sweep_run s1 s2 -> sweep_run s2 s3 -> sweep_run s1 s3.
Proof.
  induction 1 as [|a b c Hab _ IH]; [trivial|].
  intro H. eapply run_step; [exact Hab|]. now apply IH.
Qed.

Lemma snoc2_inj {A : Type} (l l' : list A) (a b a' b' : A) :
  l ++ [a; b] = l' ++ [a'; b'] -> l = l' /\ a = a' /\ b = b'.
Proof.
  intro H.
  change (l ++ [a; b]) with (l ++ [a] ++ [b]) in H.
  change (l' ++ [a'; b']) with (l' ++ [a'] ++ [b']) in H.
  rewrite !app_assoc in H. apply app_inj_tail in H. destruct H as [H ->].
  apply app_inj_tail in H. destruct H as [-> ->]. auto.
Qed.

Lemma sweep_rule_deterministic (s s1 s2 : sweep_state) :
  sweep_rule s s1 -> sweep_rule s s2 -> s1 = s2.
Proof.
  intros H1 H2. inversion H1; subst; inversion H2; subst.
  - match goal with H : _ ++ _ = _ ++ _ |- _ =>
      apply snoc2_inj in H; destruct H as (-> & -> & ->) end.
    reflexivity.
  - exfalso. match goal with H : orientation _ _ _ <> _ |- _ => apply H end.
    eauto.
  - exfalso. match goal with H : orientation _ _ _ <> _ |- _ => apply H end.
    eauto.
  - reflexivity.
Qed.

Lemma sweep_run_unique (s : sweep_state) (h1 h2 : list point) :
  sweep_run s (Sweep h1 []) -> sweep_run s (Sweep h2 []) -> h1 = h2.
Proof.
  intro H. remember (Sweep h1 []) as f eqn:Ef. revert Ef.
  induction H as [s|s a f Hsa _ IH]; intros Ef H2.
  - subst s. inversion H2 as [|x y z Hr _]; subst; [reflexivity|].
    inversion Hr.
  - inversion H2 as [|x y z Hr Hrun]; subst.
    + inversion Hsa.
    + rewrite (sweep_rule_deterministic _ _ _ Hr Hsa) in Hrun. auto.
Qed.

(** The [while] condition, read on the shape of the stack. *)
Lemma must_pop_true (hull : list point) (p : point) :
  must_pop hull p = true ->
  exists below second top,
    hull = below ++ [second; top] /\ removelast hull = below ++ [second] /\
    orientation second top p <> 1%Z.
Proof.
  unfold must_pop. intro H.
  destruct (rev hull) as [|top [|second r]] eqn:E; try discriminate.
  apply (f_equal (@rev _)) in E. rewrite rev_involutive in E. simpl in E.
  rewrite <- app_assoc in E. simpl in E.
  exists (rev r), second, top. split; [exact E|]. split.
  - subst hull.
    change (rev r ++ [second; top]) with (rev r ++ [second] ++ [top]).
    rewrite app_assoc. apply removelast_last.
  - intro O. rewrite O in H. discriminate.
Qed.

Lemma must_pop_false (hull : list point) (p : point) :
  must_pop hull p = false ->
  forall below second top,
    hull = below ++ [second; top] -> orientation second top p = 1%Z.
Proof.
  unfold must_pop. intros H below second top ->.
  rewrite rev_app_distr in H. simpl in H.
  apply Z.eqb_eq. now destruct (orientation second top p =? 1)%Z.
Qed.

(** The inner loop leaves only when its condition is false, after popping
    according to the rule. *)
Lemma pop_while_run (fuel : nat) (hull : list point) (p : point)
  (rest : list point) :
  (length hull <= fuel)%nat ->
  sweep_run (Sweep hull (p :: rest)) (Sweep (pop_while fuel hull p) (p :: rest))
  /\ must_pop (pop_while fuel hull p) p = false.
Proof.
  revert hull. induction fuel as [|fuel IH]; intros hull Hlen.
  - destruct hull; [|simpl in Hlen; lia]. split; [constructor|reflexivity].
  - simpl. destruct (must_pop hull p) eqn:E.
    + destruct (must_pop_true _ _ E) as (below & second & top & Eh & Er & Ho).
      rewrite Er. destruct (IH (below ++ [second])) as [Hrun Hstop].
      { subst hull. rewrite !length_app in *. simpl in *. lia. }
      split; [|exact Hstop].
      eapply run_step; [|exact Hrun]. subst hull. now constructor.
    + split; [constructor|exact E].
Qed.

Lemma sweep_step_run (hull : list point) (p : point) (rest : list point) :
  sweep_run (Sweep hull (p :: rest)) (Sweep (sweep_step hull p) rest).
Proof.
  destruct (pop_while_run (length hull) hull p rest (le_n _)) as [Hrun Hstop].
  eapply sweep_run_trans; [exact Hrun|].
  eapply run_step; [|constructor]. constructor.
  now apply must_pop_false.
Qed.

Lemma fold_sweep_run (points hull : list point) :
  sweep_run (Sweep hull points) (Sweep (fold_left sweep_step points hull) []).
Proof.
  revert hull. induction points as [|p t IH]; intro hull; simpl.
  - constructor.
  - eapply sweep_run_trans; [apply sweep_step_run|apply IH].
Qed.

(** C5: on an input of at least three points, the hull returned by
    [graham_scan] is the final stack of the sweep over the angle-sorted
    sequence, started on the empty stack; it is the only stack on which the
    sweep can end. *)
Theorem graham_scan_sweep (points hull : list point) :
  (3 <= length points)%nat ->
  graham_scan points = hull <->
  sweep_run (Sweep [] (sorted_points points)) (Sweep hull []).
Proof.
  intro Hn. unfold graham_scan.
  destruct (Nat.ltb_spec (length points) 3) as [Hlt|_]; [lia|].
  split.
  - intros <-. apply fold_sweep_run.
  - intro H. eapply sweep_run_unique; [apply fold_sweep_run|exact H].
Qed.

Lemma graham_scan_sweep_witness :
  sweep_run (Sweep [] (sorted_points square_plus_centre))
            (Sweep (graham_scan square_plus_centre) []).
Proof.
  apply (graham_scan_sweep square_plus_centre (graham_scan square_plus_centre)).
  - simpl. lia.
  - reflexivity.
Defined.

(** ** Arithmetic on canonical rationals, through plain fractions *)

Lemma this_plus (a b : Qc) : (this (a + b) == this a + this b)%Q.
Proof. unfold Qcplus, Q2Qc. cbn [this]. apply Qred_correct. Qed.

Lemma this_mult (a b : Qc) : (this (a * b) == this a * this b)%Q.
Proof. unfold Qcmult, Q2Qc. cbn [this]. apply Qred_correct. Qed.

Lemma this_opp (a : Qc) : (this (- a) == - this a)%Q.
Proof. unfold Qcopp, Q2Qc. cbn [this]. apply Qred_correct. Qed.

Lemma this_minus (a b : Qc) : (this (a - b) == this a - this b)%Q.
Proof. unfold Qcminus. rewrite this_plus, this_opp. reflexivity. Qed.

Lemma this_zero : (this 0 == 0)%Q.
Proof. reflexivity. Qed.

Lemma this_eq (a b : Qc) : a = b <-> (this a == this b)%Q.
Proof.
  split; [intros ->; reflexivity|apply Qc_is_canon].
Qed.

Ltac qc_to_q :=
  rewrite ?Qcltb_lt, ?Qcltb_ge, ?Qceqb_eq, ?Qceqb_neq in *;
  rewrite ?this_eq in *;
  unfold Qclt, Qcle in *;
  repeat progress
    (rewrite ?this_minus, ?this_plus, ?this_mult, ?this_opp, ?this_zero in *).

(** ** The pivot is the lowest, then leftmost point *)

Lemma tuple_ltb_spec (a b : Qc * Qc) :
  tuple_ltb a b = true <->
  fst a < fst b \/ (fst a = fst b /\ snd a < snd b).
Proof.
  unfold tuple_ltb.
  now rewrite orb_true_iff, andb_true_iff, !Qcltb_lt, Qceqb_eq.
Qed.

Lemma tuple_ltb_false (a b : Qc * Qc) :
  tuple_ltb a b = false <->
  fst b < fst a \/ (fst a = fst b /\ snd b <= snd a).
Proof.
  unfold tuple_ltb.
  rewrite orb_false_iff, andb_false_iff, !Qcltb_ge, Qceqb_neq.
  qc_to_q. split; intro H.
  - destruct (Qeq_dec (this (fst a)) (this (fst b))); [right|left]; lra.
  - lra.
Qed.

Lemma tuple_ltb_trans (a b c : Qc * Qc) :
  tuple_ltb a b = true -> tuple_ltb b c = true -> tuple_ltb a c = true.
Proof.
  rewrite !tuple_ltb_spec. qc_to_q. intros H1 H2.
  destruct (Qeq_dec (this (fst a)) (this (fst c))); [right|left]; lra.
Qed.

Lemma tuple_ltb_le_trans (a b c : Qc * Qc) :
  tuple_ltb a b = true -> tuple_ltb c b = false -> tuple_ltb a c = true.
Proof.
  rewrite tuple_ltb_false, !tuple_ltb_spec. qc_to_q. intros H1 H2.
  destruct (Qeq_dec (this (fst a)) (this (fst c))); [right|left]; lra.
Qed.

Lemma pivot_lowest_leftmost (points : list point) :
  points <> [] -> lowest_leftmost points (pivot points).
Proof.
  intro Hne. unfold pivot.
  set (d := ((0, 0) : point)).
  set (key := fun i : nat => (py (nth i points d), px (nth i points d))).
  set (lt := fun i j : nat => tuple_ltb (key i) (key j)).
  assert (Hseq : seq 0 (length points) <> []).
  { destruct points; [congruence|simpl; congruence]. }
  destruct (py_min_first_best lt) with (d := O) (l := seq 0 (length points))
    as (l1 & l2 & E & H1 & H2); [..|exact Hseq|].
  - intros a b c. apply tuple_ltb_trans.
  - intros a b c. apply tuple_ltb_le_trans.
  - set (l := py_min lt O (seq 0 (length points))) in *.
    change (lowest_leftmost points (nth l points d)).
    assert (Hl : In l (seq 0 (length points))).
    { rewrite E. apply in_or_app. right. now left. }
    apply in_seq in Hl. split; [apply nth_In; lia|].
    intros q Hq. destruct (In_nth _ _ d Hq) as (i & Hi & <-).
    assert (Hin : In i (seq 0 (length points))) by (apply in_seq; lia).
    rewrite E in Hin. apply in_app_or in Hin.
    rewrite Forall_forall in H1, H2.
    destruct Hin as [Hin|[<-|Hin]].
    + specialize (H1 i Hin). unfold lt in H1. apply tuple_ltb_spec in H1.
      simpl in H1. destruct H1 as [L|[-> L]]; [now left|right].
      split; [reflexivity|now apply Qclt_le_weak].
    + right. split; [reflexivity|apply Qcle_refl].
    + specialize (H2 i Hin). unfold lt in H2. apply tuple_ltb_false in H2.
      simpl in H2. destruct H2 as [L|[-> L]]; [now left|right].
      split; [reflexivity|exact L].
Qed.

(** ** Stable insertion sort *)

Section Sorted.
Context {A : Type} (lt : A -> A -> bool).
Hypothesis eq_dec : forall a b : A, {a = b} + {a <> b}.

Lemma in_insert_sorted (x y : A) (l : list A) :
  In y (insert_sorted lt x l) <-> y = x \/ In y l.
Proof.
  induction l as [|z t IH]; simpl.
  - intuition congruence.
  - destruct (lt z x); simpl; rewrite ?IH; intuition congruence.
Qed.

Lemma in_sorted (y : A) (l : list A) : In y (sorted lt l) <-> In y l.
Proof.
  induction l as [|x t IH]; simpl; [tauto|].
  rewrite in_insert_sorted, IH. intuition congruence.
Qed.

Lemma length_insert_sorted (x : A) (l : list A) :
  length (insert_sorted lt x l) = S (length l).
Proof.
  induction l as [|y t IH]; simpl; [reflexivity|].
  destruct (lt y x); simpl; now rewrite ?IH.
Qed.

Lemma length_sorted (l : list A) : length (sorted lt l) = length l.
Proof.
  induction l as [|x t IH]; simpl; [reflexivity|].
  now rewrite length_insert_sorted, IH.
Qed.

Lemma in_order_cons (a : A) (l : list A) :
  in_order lt l -> (forall b t, l = b :: t -> lt b a = false) ->
  in_order lt (a :: l).
Proof.
  intros Hl Hhd pre x y post E. destruct pre as [|z pre]; simpl in E.
  - injection E as Ea E. subst x. eauto.
  - injection E as Ea E. subst z. eauto.
Qed.

Lemma in_order_short (l : list A) : (length l <= 1)%nat -> in_order lt l.
Proof.
  intros H pre a b post E. apply (f_equal (@length A)) in E.
  rewrite length_app in E. simpl in E. lia.
Qed.

Lemma in_order_tail (a : A) (l : list A) :
  in_order lt (a :: l) -> in_order lt l.
Proof. intros H pre x y post E. apply (H (a :: pre) x y post). now subst. Qed.

Hypothesis lt_asym : forall a b, lt a b = true -> lt b a = false.

Lemma insert_sorted_in_order (x : A) (l : list A) :
  in_order lt l -> in_order lt (insert_sorted lt x l).
Proof.
  induction l as [|y t IH]; intro H; simpl.
  - apply in_order_short. simpl. lia.
  - destruct (lt y x) eqn:E.
    + apply in_order_cons; [apply IH; eapply in_order_tail; exact H|].
      intros b t' Eq. destruct t as [|z t]; simpl in Eq.
      * injection Eq as <- _. now apply lt_asym.
      * destruct (lt z x); injection Eq as <- _.
        -- apply (H [] y z t eq_refl).
        -- now apply lt_asym.
    + apply in_order_cons; [exact H|].
      intros b t' Eq. injection Eq as <- _. exact E.
Qed.

Lemma sorted_in_order (l : list A) : in_order lt (sorted lt l).
Proof.
  induction l as [|x t IH]; simpl.
  - apply in_order_short. simpl. lia.
  - now apply insert_sorted_in_order.
Qed.

(** A strict minimum of the input comes first. *)
Lemma sorted_head (m : A) (l : list A) :
  In m l ->
  (forall q, In q l -> lt q m = false) ->
  (forall q, In q l -> q <> m -> lt m q = true) ->
  exists rest, sorted lt l = m :: rest.
Proof.
  induction l as [|x t IH]; intros Hin Hmin Hstrict; [destruct Hin|].
  simpl. destruct (in_dec eq_dec m t) as [Ht|Ht].
  - destruct IH as [rest E]; [exact Ht|intros; apply Hmin; now right
                              |intros; apply Hstrict; [now right|easy]|].
    rewrite E. simpl. destruct (eq_dec x m) as [->|Hx].
    + destruct (lt m m); eauto.
    + rewrite (Hstrict x (or_introl eq_refl) Hx). eauto.
  - destruct Hin as [->|Hin]; [|contradiction].
    destruct (sorted lt t) as [|y s] eqn:E; simpl; [eauto|].
    assert (Hy : In y t) by (apply in_sorted; rewrite E; now left).
    rewrite (Hmin y (or_intror Hy)). eauto.
Qed.

Lemma insert_sorted_nonempty (x : A) (l : list A) :
  insert_sorted lt x l <> [].
Proof. destruct l as [|y t]; simpl; [|destruct (lt y x)]; discriminate. Qed.

Lemma last_cons_nonempty (y d : A) (l : list A) :
  l <> [] -> last (y :: l) d = last l d.
Proof. destruct l; [congruence|reflexivity]. Qed.

Lemma insert_sorted_last (x d : A) (l : list A) :
  last (insert_sorted lt x l) d = last l d \/
  (last (insert_sorted lt x l) d = x /\
   forall y, In y l -> lt y x = true).
Proof.
  induction l as [|y t IH].
  - right. split; [reflexivity|intros y []].
  - cbn [insert_sorted]. destruct (lt y x) eqn:E; [|now left].
    rewrite last_cons_nonempty by apply insert_sorted_nonempty.
    destruct t as [|z t].
    + right. split; [reflexivity|]. intros w [<-|[]]. exact E.
    + rewrite (last_cons_nonempty y d (z :: t)) by discriminate.
      destruct IH as [IH|[IH Hall]]; [now left|right].
      split; [exact IH|]. intros w [<-|Hw]; auto.
Qed.

Lemma insert_sorted_at_end (x : A) (l : list A) :
  (forall y, In y l -> lt y x = true) -> insert_sorted lt x l = l ++ [x].
Proof.
  induction l as [|y t IH]; intro H; simpl; [reflexivity|].
  rewrite (H y (or_introl eq_refl)). f_equal. apply IH.
  intros; apply H; now right.
Qed.

(** When the input has an element other than its strict minimum [m], the
    result does not end on [m]. *)
Lemma sorted_last_neq (m d : A) (l : list A) :
  (forall q, In q l -> lt q m = false) ->
  (forall q, In q l -> q <> m -> lt m q = true) ->
  (exists q, In q l /\ q <> m) ->
  last (sorted lt l) d <> m.
Proof.
  induction l as [|x t IH]; intros Hmin Hstrict (q & Hq & Hqm);
    [destruct Hq|].
  cbn [sorted fold_right]. fold (sorted lt t).
  destruct (Exists_dec (fun y => y <> m) t) as [Hex|Hno].
  { intro y. destruct (eq_dec y m); [right|left]; tauto. }
  - apply Exists_exists in Hex. destruct Hex as (q' & Hq' & Hq'm).
    assert (IH' : last (sorted lt t) d <> m).
    { apply IH; [intros; apply Hmin; now right
                |intros; apply Hstrict; [now right|easy]|eauto]. }
    destruct (insert_sorted_last x d (sorted lt t)) as [E|[E Hall]];
      rewrite E; [exact IH'|].
    intros ->. specialize (Hall q' (proj2 (in_sorted q' t) Hq')).
    rewrite (Hmin q' (or_intror Hq')) in Hall. discriminate.
  - assert (Hall : forall y, In y t -> y = m).
    { intros y Hy. destruct (eq_dec y m); [easy|].
      exfalso. apply Hno. apply Exists_exists. eauto. }
    assert (Hx : x <> m).
    { destruct Hq as [->|Hq]; [easy|]. now rewrite (Hall q Hq) in Hqm. }
    rewrite insert_sorted_at_end, last_last; [exact Hx|].
    intros y Hy. apply (proj1 (in_sorted y t)) in Hy. rewrite (Hall y Hy).
    apply Hstrict; [now left|exact Hx].
Qed.
End Sorted.

(** ** The order of Graham's output *)

(** C4 (the code fails it): on the square with its centre [graham_scan]
    returns the two points (0,0), (0,1).  Read as a closed boundary they
    make no left turn, so the output is not the counter-clockwise polygon
    boundary of the claim, which the four corners in counter-clockwise order
    from (0,0) are. *)
Theorem graham_scan_not_a_boundary :
  (3 <= length square_plus_centre)%nat /\
  graham_scan square_plus_centre = [pt 0 0; pt 0 1] /\
  ~ boundary_as_worded square_plus_centre (graham_scan square_plus_centre) /\
  boundary_as_worded square_plus_centre [pt 0 0; pt 1 0; pt 1 1; pt 0 1].
Proof.
  split; [simpl; lia|]. split; [apply graham_scan_square|]. split.
  - rewrite graham_scan_square. intros (_ & _ & H).
    inversion H as [|t l Ht _]. vm_compute in Ht. discriminate Ht.
  - split; [|split].
    + exists (pt 0 0), [pt 1 0; pt 1 1; pt 0 1]. split; [reflexivity|].
      split; [simpl; tauto|]. intros q Hq. simpl in Hq.
      destruct Hq as [<-|[<-|[<-|[<-|[<-|[]]]]]].
      * right. split; [reflexivity|]. vm_compute. discriminate.
      * right. split; [by_eval|]. vm_compute. discriminate.
      * left. vm_compute. reflexivity.
      * left. vm_compute. reflexivity.
      * left. vm_compute. reflexivity.
    + repeat constructor; not_in.
    + repeat constructor; vm_compute; reflexivity.
Qed.

(** * Further properties of the hull routines *)

(** ** The two sign tests *)





(** ** The farthest-point loop selects the first match *)

Lemma scan_no_match (points : list point) (p1 p2 : point) (f : Qc) :
  Forall (fun q => side p1 p2 q <> f) points ->
  scan points p1 p2 f = (0, None).
Proof.
  unfold scan. induction 1 as [|q t Hq _ IH]; [reflexivity|].
  simpl. unfold scan_step at 2.
  replace (Qceqb (side p1 p2 q) f) with false; [exact IH|].
  symmetry. now apply Qceqb_neq.
Qed.

Lemma scan_keeps_match (l : list point) (p1 p2 m : point) (f : Qc) :
  fold_left (scan_step p1 p2 f) l (Qcabs f, Some m) = (Qcabs f, Some m).
Proof.
  induction l as [|q t IH]; [reflexivity|]. simpl.
  unfold scan_step at 2. cbn [fst].
  destruct (Qceqb (side p1 p2 q) f) eqn:E; [|exact IH].
  apply Qceqb_eq in E. rewrite E, Qcltb_irrefl. exact IH.
Qed.

Lemma scan_first_match (l1 l2 : list point) (p1 p2 m : point) (f : Qc) :
  f <> 0 ->
  Forall (fun q => side p1 p2 q <> f) l1 ->
  side p1 p2 m = f ->
  scan (l1 ++ m :: l2) p1 p2 f = (Qcabs f, Some m).
Proof.
  intros Hf H1 Hm. unfold scan. rewrite fold_left_app.
  fold (scan l1 p1 p2 f). rewrite (scan_no_match _ _ _ _ H1).
  simpl. unfold scan_step at 2. cbn [fst]. rewrite Hm.
  replace (Qceqb f f) with true by (symmetry; now apply Qceqb_eq).
  replace (Qcltb 0 (Qcabs f)) with true
    by (symmetry; now apply Qcltb_lt, Qcabs_pos_iff).
  apply scan_keeps_match.
Qed.

Lemma first_match_split (P : point -> Prop) (l : list point) :
  (forall q, {P q} + {~ P q}) ->
  Exists P l ->
  exists l1 m l2, l = l1 ++ m :: l2 /\ P m /\ Forall (fun q => ~ P q) l1.
Proof.
  intros dec. induction l as [|x t IH]; intro H; [inversion H|].
  destruct (dec x) as [Hx|Hx].
  - exists [], x, t. repeat split; [exact Hx|constructor].
  - destruct IH as (l1 & m & l2 & -> & Hm & H1).
    { inversion H; [contradiction|assumption]. }
    exists (x :: l1), m, l2. repeat split; [exact Hm|]. now constructor.
Qed.

(** X3: the loop of [quickhull_util] selects a point exactly when the flag is
    not 0 and some point has [side] equal to the flag, and the selected point
    is the first such point of the list: all matching points have the same
    magnitude, so [temp > max_dist] never replaces the first one. *)
Theorem scan_selects_first_match (points : list point) (p1 p2 m : point)
  (side_flag : Qc) :
  snd (scan points p1 p2 side_flag) = Some m <->
  side_flag <> 0 /\
  exists l1 l2, points = l1 ++ m :: l2 /\ side p1 p2 m = side_flag /\
                Forall (fun q => side p1 p2 q <> side_flag) l1.
Proof.
  split.
  - intro E. destruct (scan_some _ _ _ _ _ E) as (Hin & Hf & Hnz & _).
    assert (Hflag : side_flag <> 0) by congruence.
    split; [exact Hflag|].
    destruct (first_match_split (fun q => side p1 p2 q = side_flag) points)
      as (l1 & m' & l2 & Ep & Hm' & H1).
    + intro q. apply Qc_eq_dec.
    + apply Exists_exists. eauto.
    + subst points.
      rewrite (scan_first_match l1 l2 p1 p2 m' side_flag Hflag H1 Hm') in E.
      simpl in E. assert (m' = m) by congruence. subst m'.
      exists l1, l2. auto.
  - intros (Hflag & l1 & l2 & -> & Hm & H1).
    now rewrite (scan_first_match l1 l2 p1 p2 m side_flag Hflag H1 Hm).
Qed.

(** ** Flags and degenerate calls of [quickhull_util] *)

(** X5: with flag 0 [quickhull_util] returns the empty list at once, whatever
    the points and the baseline. *)
Theorem quickhull_util_flag_0 (depth : nat) (points : list point)
  (p1 p2 : point) :
  quickhull_util (S depth) points p1 p2 0 = Some [].
Proof.
  rewrite quickhull_util_unfold.
  destruct (snd (scan points p1 p2 0)) as [m|] eqn:E; [|reflexivity].
  destruct (scan_some _ _ _ _ _ E) as (_ & Hf & Hnz & _). contradiction.
Qed.

(** X6: on a baseline whose two endpoints coincide [quickhull_util] returns
    the empty list at once, whatever the points and the flag. *)
Theorem quickhull_util_point_baseline (depth : nat) (points : list point)
  (p : point) (side_flag : Qc) :
  quickhull_util (S depth) points p p side_flag = Some [].
Proof.
  rewrite quickhull_util_unfold.
  destruct (snd (scan points p p side_flag)) as [m|] eqn:E; [|reflexivity].
  destruct (scan_some _ _ _ _ _ E) as (_ & _ & Hnz & _).
  exfalso. apply Hnz. apply side_same_endpoints.
Qed.

(** X16: the point that the loop of [quickhull_util] selects is never one of
    the two endpoints of the baseline. *)
Theorem scan_skips_endpoints (points : list point) (p1 p2 m : point)
  (side_flag : Qc) :
  snd (scan points p1 p2 side_flag) = Some m -> m <> p1 /\ m <> p2.
Proof.
  intro E. destruct (scan_some _ _ _ _ _ E) as (_ & _ & Hnz & _).
  split; intros ->; apply Hnz; unfold side; ring.
Qed.

Lemma scan_skips_endpoints_witness :
  pt 1 1 <> pt 0 0 /\ pt 1 1 <> pt 1 0.
Proof.
  apply (scan_skips_endpoints square_plus_centre (pt 0 0) (pt 1 0) (pt 1 1) 1).
  by_eval.
Defined.

Lemma baseline_min_in (points : list point) :
  points <> [] -> In (baseline_min points) points.
Proof.
  intro Hne. destruct (min_point_first points Hne) as (l1 & l2 & E & _).
  fold (baseline_min points) in E. rewrite E at 2.
  apply in_or_app. right. now left.
Qed.

Lemma baseline_max_in (points : list point) :
  points <> [] -> In (baseline_max points) points.
Proof.
  intro Hne. destruct (max_point_first points Hne) as (l1 & l2 & E & _).
  fold (baseline_max points) in E. rewrite E at 2.
  apply in_or_app. right. now left.
Qed.

(** ** No fabricated points *)

Lemma quickhull_util_subset (depth : nat) (points : list point)
  (p1 p2 : point) (f : Qc) (hull : list point) :
  quickhull_util depth points p1 p2 f = Some hull ->
  forall p, In p hull -> In p points.
Proof.
  revert p1 p2 f hull.
  induction depth as [|depth IH]; intros p1 p2 f hull H; [discriminate|].
  rewrite quickhull_util_unfold in H.
  destruct (snd (scan points p1 p2 f)) as [m|] eqn:E.
  - destruct (quickhull_util depth points p1 m _) as [l|] eqn:El;
      [|discriminate].
    destruct (quickhull_util depth points m p2 _) as [r|] eqn:Er;
      [|discriminate].
    cbn [bind] in H. injection H as <-. intros p Hp.
    apply in_app_or in Hp. destruct Hp as [Hp|[<-|Hp]].
    + exact (IH _ _ _ _ El p Hp).
    + now destruct (scan_some _ _ _ _ _ E).
    + exact (IH _ _ _ _ Er p Hp).
  - injection H as <-. intros p [].
Qed.

(** X9: every point that [quickhull] returns is one of the input points. *)
Theorem quickhull_subset (depth : nat) (points hull : list point) :
  quickhull depth points = Some hull ->
  forall p, In p hull -> In p points.
Proof.
  unfold quickhull.
  destruct (Nat.ltb_spec (length points) 3) as [Hlt|Hge].
  - intro H. injection H as <-. auto.
  - pose proof (length_ge3_nonempty _ Hge) as Hne.
    fold (baseline_min points). fold (baseline_max points).
    destruct (quickhull_util depth points _ _ 1) as [u|] eqn:Eu;
      [|discriminate].
    destruct (quickhull_util depth points _ _ (- (1))) as [l|] eqn:El;
      [|discriminate].
    cbn [bind]. intro H. injection H as <-. intros p Hp.
    change ([] ++ u) with u in Hp. rewrite !in_app_iff in Hp.
    destruct Hp as [[[Hp|Hp]|Hp]|Hp].
    + exact (quickhull_util_subset _ _ _ _ _ _ Eu p Hp).
    + exact (quickhull_util_subset _ _ _ _ _ _ El p Hp).
    + destruct Hp as [<-|[]]. now apply baseline_min_in.
    + destruct Hp as [<-|[]]. now apply baseline_max_in.
Qed.

Lemma quickhull_subset_witness : In (pt 1 1) square_plus_centre.
Proof.
  apply (quickhull_subset 3 square_plus_centre
           [pt 0 1; pt 1 1; pt 0 0; pt 1 0]).
  - by_eval.
  - right. now left.
Defined.

(** ** Invariants of the sweep, on any sequence of points *)

Lemma subseq_nil_l {A : Type} (l : list A) : subseq [] l.
Proof. induction l; [apply subseq_nil|now apply subseq_skip]. Qed.

Lemma subseq_refl {A : Type} (l : list A) : subseq l l.
Proof. induction l; [apply subseq_nil|now apply subseq_take]. Qed.

Lemma subseq_app {A : Type} (a b c d : list A) :
  subseq a b -> subseq c d -> subseq (a ++ c) (b ++ d).
Proof.
  induction 1 as [|x s l _ IH|x s l _ IH]; intro Hcd; simpl;
    [exact Hcd|apply subseq_skip; now apply IH|apply subseq_take; now apply IH].
Qed.

Lemma subseq_app_cut {A : Type} (r suf l : list A) :
  subseq (r ++ suf) l -> subseq r l.
Proof.
  intro H. remember (r ++ suf) as s eqn:E. revert r E.
  induction H as [|x s l _ IH|x s l _ IH]; intros r E.
  - destruct r; [constructor|discriminate].
  - apply subseq_skip. now apply IH.
  - destruct r as [|y r]; [apply subseq_nil_l|].
    simpl in E. injection E as <- E. apply subseq_take. now apply IH.
Qed.

Lemma subseq_incl {A : Type} (s l : list A) :
  subseq s l -> forall x, In x s -> In x l.
Proof.
  induction 1 as [|y s l _ IH|y s l _ IH]; intros x Hx.
  - destruct Hx.
  - right. now apply IH.
  - destruct Hx as [<-|Hx]; [now left|right; now apply IH].
Qed.

Lemma pop_while_prefix (fuel : nat) (hull : list point) (p : point) :
  exists popped, hull = pop_while fuel hull p ++ popped.
Proof.
  revert hull. induction fuel as [|fuel IH]; intro hull; simpl.
  - exists []. now rewrite app_nil_r.
  - destruct (must_pop hull p) eqn:E.
    + destruct (must_pop_true _ _ E) as (below & second & top & Eh & Er & _).
      destruct (IH (removelast hull)) as [popped Ep].
      exists (popped ++ [top]). rewrite app_assoc, <- Ep, Er, Eh.
      now rewrite <- app_assoc.
    + exists []. now rewrite app_nil_r.
Qed.

Lemma fold_sweep_subseq (todo seen hull : list point) :
  subseq hull seen ->
  subseq (fold_left sweep_step todo hull) (seen ++ todo).
Proof.
  revert seen hull. induction todo as [|p t IH]; intros seen hull H; simpl.
  - now rewrite app_nil_r.
  - replace (seen ++ p :: t) with ((seen ++ [p]) ++ t)
      by (rewrite <- app_assoc; reflexivity).
    apply IH. unfold sweep_step. apply subseq_app; [|apply subseq_refl].
    destruct (pop_while_prefix (length hull) hull p) as [popped E].
    rewrite E in H. exact (subseq_app_cut _ _ _ H).
Qed.

Lemma pop_while_head (fuel : nat) (x : point) (t : list point) (p : point) :
  exists t', pop_while fuel (x :: t) p = x :: t'.
Proof.
  revert t. induction fuel as [|fuel IH]; intro t; cbn [pop_while]; [eauto|].
  destruct (must_pop (x :: t) p) eqn:E; [|eauto].
  destruct (must_pop_true _ _ E) as (below & second & top & Eh & Er & _).
  rewrite Er. destruct below as [|y below]; simpl in Eh.
  - injection Eh as <- _. apply (IH []).
  - injection Eh as <- _. apply IH.
Qed.

Lemma fold_sweep_head (todo : list point) (x : point) (t : list point) :
  exists t', fold_left sweep_step todo (x :: t) = x :: t'.
Proof.
  revert t. induction todo as [|p todo IH]; intro t; simpl; [eauto|].
  unfold sweep_step at 2.
  destruct (pop_while_head (length (x :: t)) x t p) as [t' ->].
  apply IH.
Qed.

(** X10: whatever sequence the sweep visits, the stack it ends with is a
    subsequence of that sequence (nothing is added or reordered), and on a
    non-empty sequence it begins with the first visited point and ends with
    the last one. *)
Theorem sweep_keeps_ends (x : point) (l : list point) :
  subseq (sweep (x :: l)) (x :: l) /\
  (exists t, sweep (x :: l) = x :: t) /\
  last (sweep (x :: l)) x = last (x :: l) x.
Proof.
  split; [apply (fold_sweep_subseq (x :: l) [] []); constructor|].
  split.
  - unfold sweep. cbn [fold_left]. change (sweep_step [] x) with [x].
    apply fold_sweep_head.
  - unfold sweep.
    destruct (exists_last (l := x :: l)) as (l' & z & E); [discriminate|].
    rewrite E, fold_left_app. cbn [fold_left]. unfold sweep_step at 1.
    now rewrite !last_last.
Qed.

Lemma turns_one_prefix (r popped : list point) :
  turns_one (r ++ popped) -> turns_one r.
Proof.
  intros H pre a b c post E. apply (H pre a b c (post ++ popped)).
  rewrite E, <- app_assoc. reflexivity.
Qed.

Lemma turns_one_push (r : list point) (p : point) :
  turns_one r -> must_pop r p = false -> turns_one (r ++ [p]).
Proof.
  intros Hr Hstop pre a b c post E.
  destruct (exists_last (l := a :: b :: c :: post)) as (l' & z & El);
    [discriminate|].
  rewrite El, app_assoc in E. apply app_inj_tail in E.
  destruct E as [Er Ez]. subst z.
  destruct post as [|d post].
  - (* the new triple is (second, top, p) *)
    change [a; b; c] with ([a; b] ++ [c]) in El.
    apply app_inj_tail in El. destruct El as [<- ->].
    apply (must_pop_false r _ Hstop pre a b). exact Er.
  - destruct (exists_last (l := d :: post)) as (post' & z' & Ep);
      [discriminate|].
    rewrite Ep in El.
    change (a :: b :: c :: post' ++ [z']) with ((a :: b :: c :: post') ++ [z'])
      in El.
    apply app_inj_tail in El. destruct El as [<- _].
    apply (Hr pre a b c post'). exact Er.
Qed.

Lemma fold_sweep_turns_one (todo hull : list point) :
  turns_one hull -> turns_one (fold_left sweep_step todo hull).
Proof.
  revert hull. induction todo as [|p t IH]; intros hull H; simpl; [exact H|].
  apply IH. unfold sweep_step.
  destruct (pop_while_run (length hull) hull p [] (le_n _)) as [_ Hstop].
  destruct (pop_while_prefix (length hull) hull p) as [popped E].
  apply turns_one_push; [|exact Hstop].
  rewrite E in H. exact (turns_one_prefix _ _ H).
Qed.

(** X11: whatever sequence the sweep visits, every three consecutive points
    of the stack it ends with have [orientation] 1. *)
Theorem sweep_turns_one (l : list point) : turns_one (sweep l).
Proof.
  apply fold_sweep_turns_one. intros pre a b c post E.
  destruct pre; discriminate E.
Qed.

(** X12: every point that [graham_scan] returns is one of the input
    points. *)
Theorem graham_scan_subset (points : list point) (p : point) :
  In p (graham_scan points) -> In p points.
Proof.
  unfold graham_scan. destruct (length points <? 3)%nat; [trivial|].
  intro H. apply (in_sorted (key_ltb (pivot points))).
  apply (subseq_incl (sweep (sorted_points points))); [|exact H].
  apply (fold_sweep_subseq (sorted_points points) [] []). constructor.
Qed.

Lemma graham_scan_subset_witness : In (pt 0 1) square_plus_centre.
Proof.
  apply (graham_scan_subset square_plus_centre (pt 0 1)).
  rewrite graham_scan_square. right. now left.
Defined.
